(** * Gap propagation through delay and Lagrange interpolation

    A shallow embedding of [utility_funcs/gap_widening_utils.py] and
    [utility_funcs/multi_gap_utils.py].

    Python integers are [Z].  Python / numpy floats are modelled by exact
    rationals [Q]: the values handled here (delays, multipliers, half orders,
    gap sizes) are small integers or halves, which binary64 represents
    exactly.  [int(x)] truncates toward zero, [np.floor] is [Qfloor].
    An array element is either NaN or a finite number.  A Python exception
    is [None] in an [option]. *)

From Stdlib Require Import ZArith QArith Qround List Bool Lia Sorting.Sorted Sorting.Permutation.
Import ListNotations.
Open Scope Z_scope.

(** ** Floats and arrays *)

Inductive flt : Type :=
| NaN : flt
| Num : Q -> flt.

Definition isnan (x : flt) : bool :=
  match x with NaN => true | Num _ => false end.

(** Python's [int(x)] on a float: truncation toward zero. *)
Definition py_int (q : Q) : Z :=
  if Qle_bool 0 q then Qfloor q else - Qfloor (- q).

(** Strict comparison of floats. *)
Definition Qlt_bool (a b : Q) : bool := negb (Qle_bool b a).

(** Python slice bound normalisation for [a[i:j]] on a sequence of
    length [len] (non-[None] bounds). *)
Definition slice_bound (len i : Z) : Z :=
  if i <? 0 then Z.max 0 (len + i) else Z.min i len.

(** [np.arange(s, e)] on integers. *)
Definition arange (s e : Z) : list Z :=
  map (fun k => s + Z.of_nat k) (seq 0 (Z.to_nat (e - s))).

(** ** gap_widening_utils.py *)

Section GapWidening.

Local Open Scope Q_scope.

(** The three values of [extra_widening] in [gap_augmentation_expression]:
    [lagrange_order + N_nans] (a Python int), [(lagrange_order + 1) / 2 + D]
    (a float) and [lagrange_order] (an int). *)
Definition extra_branch_1 (lagrange_order N_nans : Z) : Q :=
  inject_Z (lagrange_order + N_nans).

Definition extra_branch_2 (lagrange_order : Z) (D : Q) : Q :=
  (inject_Z lagrange_order + 1) / 2 + D.

Definition extra_branch_3 (lagrange_order : Z) : Q :=
  inject_Z lagrange_order.

(** [return int(extra_widening), int(N_nans + extra_widening)]. *)
Definition widening_result (N_nans : Z) (extra_widening : Q) : Z * Z :=
  (py_int extra_widening, py_int (inject_Z N_nans + extra_widening)).

(** [gap_augmentation_expression(lagrange_order, N_nans, delay, delay_number)].
    [D], [B_1], [B_2] are numpy floats, compared without truncation. *)
Definition gap_augmentation_expression
    (lagrange_order N_nans : Z) (delay delay_number : Q) : Z * Z :=
  let D := inject_Z (Qfloor (delay_number * delay)) in
  let B_1 := 1 + 2 * D - 2 * inject_Z N_nans in
  let B_2 := 2 * D - 1 in
  let L := inject_Z lagrange_order in
  let extra_widening :=
    if Qlt_bool 1 L && Qle_bool L B_1 then extra_branch_1 lagrange_order N_nans
    else if Qle_bool L B_2 then extra_branch_2 lagrange_order D
    else extra_branch_3 lagrange_order in
  widening_result N_nans extra_widening.

End GapWidening.

(** [_cascade_widening(lagrange_order, initial_nans, delay, delay_numbers)]:
    the loop runs over [delay_numbers[:-1]]; [delay_numbers[-1]] raises
    [IndexError] on an empty list. *)
Definition _cascade_widening
    (lagrange_order initial_nans : Z) (delay : Q) (delay_numbers : list Q)
    : option (Z * Z) :=
  match delay_numbers with
  | [] => None
  | _ :: _ =>
      let nans :=
        fold_left
          (fun nans d_num =>
             snd (gap_augmentation_expression lagrange_order nans delay d_num))
          (removelast delay_numbers) initial_nans in
      Some (gap_augmentation_expression lagrange_order nans delay
              (last delay_numbers 0%Q))
  end.

Definition widening_gap_X1 (lagrange_order N_nans : Z) (delay : Q)
    : option (Z * Z) :=
  _cascade_widening lagrange_order N_nans delay [1; 1; 2]%Q.

(** [_, total_nans_X1 = widening_gap_X1(...)] propagates the exception of
    the call, if any. *)
Definition widening_gap_X2 (lagrange_order N_nans : Z) (delay : Q)
    : option (Z * Z) :=
  match widening_gap_X1 lagrange_order N_nans delay with
  | None => None
  | Some (_, total_nans_X1) =>
      Some (gap_augmentation_expression lagrange_order total_nans_X1 delay 4)
  end.

Definition widening_gap_X1_unfactorized (lagrange_order N_nans : Z) (delay : Q)
    : option (Z * Z) :=
  _cascade_widening lagrange_order N_nans delay [1; 3]%Q.

Definition widening_gap_X2_unfactorized (lagrange_order N_nans : Z) (delay : Q)
    : option (Z * Z) :=
  _cascade_widening lagrange_order N_nans delay [1; 7]%Q.

(** [construct_mask_single_gap(N_nans, length)]: [np.ones(length)], then
    [masking_function[mid_index : mid_index + N_nans] = np.nan] with
    [mid_index = int(len / 2)]; the slice bounds are clipped as Python
    does.  [length] is a non-negative int. *)
Definition construct_mask_single_gap (N_nans length : Z) : list flt :=
  let mid_index := length / 2 in
  let lo := slice_bound length mid_index in
  let hi := slice_bound length (mid_index + N_nans) in
  map (fun i => if (lo <=? i) && (i <? hi) then NaN else Num 1)
      (arange 0 length).

(** ** multi_gap_utils.py *)

(** Python's [list.sort(key=...)] is stable; modelled by insertion sort,
    which inserts an element before the first one of greater or equal
    key, processing the list from its end. *)
Fixpoint insert_by {A} (key : A -> Z) (x : A) (l : list A) : list A :=
  match l with
  | [] => [x]
  | y :: l' => if key x <=? key y then x :: l else y :: insert_by key x l'
  end.

Fixpoint sort_by {A} (key : A -> Z) (l : list A) : list A :=
  match l with
  | [] => []
  | x :: l' => insert_by key x (sort_by key l')
  end.

(** One iteration of the loop of [merge_intervals]; [merged] is kept
    reversed, so that [merged[-1]] is its head. *)
Definition merge_step (merged : list (Z * Z)) (current : Z * Z) : list (Z * Z) :=
  match merged with
  | [] => [current]
  | prev :: done =>
      if fst current <=? snd prev + 1 then (fst prev, Z.max (snd prev) (snd current)) :: done
      else current :: merged
  end.

(** [merge_intervals(intervals)] as a call on the caller's list object:
    the first component is the caller's list after the call
    ([intervals.sort(...)] sorts it in place), the second the result. *)
Definition merge_intervals_call (intervals : list (Z * Z))
    : list (Z * Z) * list (Z * Z) :=
  match intervals with
  | [] => (intervals, [])
  | _ :: _ =>
      let sorted := sort_by fst intervals in
      match sorted with
      | [] => (sorted, [])
      | first :: rest => (sorted, rev (fold_left merge_step rest [first]))
      end
  end.

Definition merge_intervals (intervals : list (Z * Z)) : list (Z * Z) :=
  snd (merge_intervals_call intervals).

(** [np.split(nan_indices, np.where(np.diff(nan_indices) > 1)[0] + 1)]:
    [block] is the current block reversed, [prev] its last index. *)
Fixpoint split_blocks (block : list Z) (prev : Z) (rest : list Z) : list (list Z) :=
  match rest with
  | [] => [rev block]
  | x :: rest' =>
      if x - prev >? 1 then rev block :: split_blocks [x] x rest'
      else split_blocks (x :: block) x rest'
  end.

(** The elements of an array paired with their indices, from [k] on. *)
Fixpoint enumerate (k : Z) (xs : list flt) : list (Z * flt) :=
  match xs with
  | [] => []
  | x :: xs' => (k, x) :: enumerate (k + 1) xs'
  end.

(** [np.argwhere(np.isnan(object_w_nans)).flatten()]. *)
Definition nan_indices (object_w_nans : list flt) : list Z :=
  map fst (filter (fun ix => isnan (snd ix)) (enumerate 0 object_w_nans)).

(** [nans_blocks_function(object_w_nans)]; the empty [np.array] returned
    when there is no NaN iterates as no block. *)
Definition nans_blocks_function (object_w_nans : list flt) : list (list Z) :=
  match nan_indices object_w_nans with
  | [] => []
  | i :: rest => split_blocks [i] i rest
  end.

(** [np.unique]: sorted, without duplicates. *)
Definition unique (l : list Z) : list Z := nodup Z.eq_dec (sort_by (fun i => i) l).

(** The two intervals appended for one block. *)
Definition block_intervals (delay p : Z) (block : list Z) : list (Z * Z) :=
  let n_object_first := hd 0 block in
  let n_object_last := last block 0 in
  let direct_start := n_object_first in
  let direct_end := n_object_last in
  let delay_start := n_object_first + delay - p + 1 in
  let delay_end := n_object_last + delay - (1 - p) + 1 in
  [(direct_start, direct_end); (delay_start, delay_end)].

(** [compute_nan_indices_delay(object_w_nans, delay, order)].
    [np.concatenate] of an empty list raises [ValueError]: [None]. *)
Definition compute_nan_indices_delay (object_w_nans : list flt) (delay order : Z)
    : option (list flt) :=
  let N_original_series := Z.of_nat (length object_w_nans) in
  let nan_blocks := nans_blocks_function object_w_nans in
  let p := Z.quot (order + 1) 2 in
  let affected_intervals := flat_map (block_intervals delay p) nan_blocks in
  let merged_intervals := merge_intervals affected_intervals in
  match merged_intervals with
  | [] => None
  | _ :: _ =>
      let affected_indices :=
        concat (map (fun '(start, end_) => arange start (end_ + 1)) merged_intervals) in
      let affected_indices :=
        filter (fun i => (0 <=? i) && (i <? N_original_series)) affected_indices in
      let affected_indices := unique affected_indices in
      Some (map (fun i => if existsb (Z.eqb i) affected_indices then NaN else Num 1)
                (arange 0 N_original_series))
  end.

Definition mask_eta (mask_telemetry : list flt) (delay : Q) (order : Z)
    : option (list flt) :=
  compute_nan_indices_delay mask_telemetry (Qfloor delay) order.

Definition mask_TDI_X (mask_telemetry : list flt) (delay : Q) (order generation : Z)
    : option (list flt) :=
  match compute_nan_indices_delay mask_telemetry (Qfloor delay) order with
  | None => None
  | Some eta =>
  match compute_nan_indices_delay eta (Qfloor delay) order with
  | None => None
  | Some a12 =>
  match compute_nan_indices_delay a12 (Qfloor (2 * delay)) order with
  | None => None
  | Some r12 =>
      if generation =? 1 then Some r12
      else compute_nan_indices_delay r12 (Qfloor (4 * delay)) order
  end end end.

(** ** Interval sets *)

(** Whether index [i] lies in one of the inclusive intervals of [l]. *)
Definition covers (l : list (Z * Z)) (i : Z) : bool :=
  existsb (fun iv => (fst iv <=? i) && (i <=? snd iv)) l.

(** The loop of [merge_intervals] as a structural recursion: [prev] is
    [merged[-1]], the result lists [prev] and what the rest merges into. *)
Fixpoint merge_from (prev : Z * Z) (rest : list (Z * Z)) : list (Z * Z) :=
  match rest with
  | [] => [prev]
  | current :: rest' =>
      if fst current <=? snd prev + 1
      then merge_from (fst prev, Z.max (snd prev) (snd current)) rest'
      else prev :: merge_from current rest'
  end.

(** [approx_total_nans_from_nan_blocks_eta(object_w_nans, delay,
    lagrange_order, delay_number)]: the sum of the per-block totals. *)
Definition approx_total_nans_from_nan_blocks_eta
    (object_w_nans : list flt) (delay : Q) (lagrange_order : Z) (delay_number : Q) : Z :=
  fold_left
    (fun total_nans block =>
       let block_size := Z.of_nat (length block) in
       total_nans + snd (gap_augmentation_expression lagrange_order block_size delay delay_number))
    (nans_blocks_function object_w_nans) 0.

(** [approx_total_nans_from_nan_blocks_X(object_w_nans, delay, order,
    generation)]; an exception of a widening call propagates. *)
Definition approx_total_nans_from_nan_blocks_X
    (object_w_nans : list flt) (delay : Q) (order generation : Z) : option Z :=
  fold_left
    (fun acc block =>
       match acc with
       | None => None
       | Some total_nans =>
           let block_size := Z.of_nat (length block) in
           match (if generation =? 1 then widening_gap_X1 order block_size delay
                  else widening_gap_X2 order block_size delay) with
           | None => None
           | Some (_, total_nans_block) => Some (total_nans + total_nans_block)
           end
       end)
    (nans_blocks_function object_w_nans) (Some 0).

(** Scenario D of the spec: a mask of length 20 with NaN at 9, 10, 11. *)
Definition scenario_D_mask : list flt :=
  map (fun i => if (9 <=? i) && (i <=? 11) then NaN else Num 1) (arange 0 20).

(** Scenario D with a second gap, at 2 and 3. *)
Definition scenario_D_two_gaps_mask : list flt :=
  map (fun i => if ((2 <=? i) && (i <=? 3)) || ((9 <=? i) && (i <=? 11)) then NaN else Num 1)
      (arange 0 20).

(** * Properties *)

(** ** Float conversions *)

Lemma py_int_comp (p q : Q) : (p == q)%Q -> py_int p = py_int q.
Proof.
  intros H. unfold py_int.
  destruct (Qle_bool 0 p) eqn:Ep, (Qle_bool 0 q) eqn:Eq.
  - now rewrite H.
  - apply Qle_bool_iff in Ep. rewrite H in Ep. apply Qle_bool_iff in Ep. congruence.
  - apply Qle_bool_iff in Eq. rewrite <- H in Eq. apply Qle_bool_iff in Eq. congruence.
  - now rewrite H.
Qed.

Lemma py_int_Z (z : Z) : py_int (inject_Z z) = z.
Proof.
  unfold py_int. destruct (Qle_bool 0 (inject_Z z)) eqn:E.
  - apply Qfloor_Z.
  - rewrite <- inject_Z_opp, Qfloor_Z. lia.
Qed.

Lemma py_int_lower (z : Z) (q : Q) :
  0 <= z -> (inject_Z z <= q)%Q -> z <= py_int q.
Proof.
  intros Hz Hq. unfold py_int.
  assert (H0 : (0 <= q)%Q).
  { apply Qle_trans with (inject_Z z); [|exact Hq].
    change 0%Q with (inject_Z 0). rewrite <- Zle_Qle. exact Hz. }
  apply Qle_bool_iff in H0. rewrite H0.
  rewrite <- (Qfloor_Z z). now apply Qfloor_resp_le.
Qed.

Lemma widening_result_Z (N_nans z : Z) (e : Q) :
  (e == inject_Z z)%Q -> widening_result N_nans e = (z, N_nans + z).
Proof.
  intros H. unfold widening_result.
  rewrite (py_int_comp _ _ H), py_int_Z.
  rewrite (py_int_comp (inject_Z N_nans + e) (inject_Z (N_nans + z))).
  - now rewrite py_int_Z.
  - rewrite H, inject_Z_plus. reflexivity.
Qed.

Lemma widening_result_nonneg (N_nans : Z) (e : Q) :
  0 <= N_nans -> (0 <= e)%Q ->
  0 <= fst (widening_result N_nans e) /\ N_nans <= snd (widening_result N_nans e).
Proof.
  intros Hn He. unfold widening_result; simpl. split.
  - apply py_int_lower; [lia | exact He].
  - apply py_int_lower; [exact Hn|].
    rewrite <- (Qplus_0_r (inject_Z N_nans)) at 1.
    apply Qplus_le_compat; [apply Qle_refl | exact He].
Qed.

Lemma Qfloor_nonneg (q : Q) : (0 <= q)%Q -> 0 <= Qfloor q.
Proof. intros H. rewrite <- (Qfloor_Z 0). now apply Qfloor_resp_le. Qed.

(** ** gap_augmentation_expression *)

(** C9: scenario A: [D = 10], [B_1 = 15], [B_2 = 19], the first branch
    applies and the result is [(8, 11)]. *)
Theorem gap_augmentation_scenario_A :
  gap_augmentation_expression 5 3 10 1 = (8, 11).
Proof. reflexivity. Qed.

(** C8: for [L >= 1], [N_nans >= 0], [delay >= 0] and [delay_number > 0],
    the extra widening is non-negative and the total is at least [N_nans]. *)
Theorem gap_augmentation_monotone (L N_nans : Z) (delay delay_number : Q) :
  1 <= L -> 0 <= N_nans -> (0 <= delay)%Q -> (0 < delay_number)%Q ->
  0 <= fst (gap_augmentation_expression L N_nans delay delay_number) /\
  N_nans <= snd (gap_augmentation_expression L N_nans delay delay_number).
Proof.
  intros HL Hn Hd Hk.
  assert (HD : 0 <= Qfloor (delay_number * delay)).
  { apply Qfloor_nonneg. apply Qmult_le_0_compat; [apply Qlt_le_weak|]; assumption. }
  unfold gap_augmentation_expression.
  apply widening_result_nonneg; [exact Hn|].
  revert HD; generalize (Qfloor (delay_number * delay)); intros Dz HD.
  destruct (_ && _); [|destruct (Qle_bool _ _)];
    unfold extra_branch_1, extra_branch_2, extra_branch_3;
    unfold Qle, Qplus, Qdiv, Qmult, Qinv, inject_Z; simpl; nia.
Qed.

(** C3 (amended): at [L = B_1] the first two branches give the same
    result, [(1 + 2D - N_nans, 1 + 2D)]; at [L = B_2] the second branch
    gives an extra widening of [2D] and the third one of [2D - 1]. *)
Theorem gap_augmentation_regime_boundaries (N_nans : Z) (delay delay_number : Q) :
  let D := Qfloor (delay_number * delay) in
  let B_1 := 1 + 2 * D - 2 * N_nans in
  let B_2 := 2 * D - 1 in
  widening_result N_nans (extra_branch_1 B_1 N_nans)
    = widening_result N_nans (extra_branch_2 B_1 (inject_Z D)) /\
  widening_result N_nans (extra_branch_2 B_2 (inject_Z D)) = (2 * D, N_nans + 2 * D) /\
  widening_result N_nans (extra_branch_3 B_2) = (2 * D - 1, N_nans + (2 * D - 1)).
Proof.
  intros D B_1 B_2. subst B_1 B_2. clearbody D. split; [|split].
  - rewrite (widening_result_Z N_nans (1 + 2 * D - N_nans)).
    + rewrite (widening_result_Z N_nans (1 + 2 * D - N_nans)); [reflexivity|].
      unfold extra_branch_2, Qeq, Qdiv; cbn [Qnum Qden Qplus Qmult Qinv inject_Z]; lia.
    + unfold extra_branch_1, Qeq; cbn [Qnum Qden inject_Z]; lia.
  - apply widening_result_Z.
    unfold extra_branch_2, Qeq, Qdiv; cbn [Qnum Qden Qplus Qmult Qinv inject_Z]; lia.
  - apply widening_result_Z. reflexivity.
Qed.

(** C3: the second and third branches do not agree at [L = B_2]:
    with [delay = 10], [delay_number = 1], [N_nans = 3], [B_2 = 19] and
    the branches give [(20, 23)] and [(19, 22)]. *)
Theorem gap_augmentation_B2_branches_disagree :
  ~ (forall (N_nans : Z) (delay delay_number : Q),
       let D := Qfloor (delay_number * delay) in
       let B_2 := 2 * D - 1 in
       widening_result N_nans (extra_branch_2 B_2 (inject_Z D))
         = widening_result N_nans (extra_branch_3 B_2)).
Proof.
  intros H. specialize (H 3 10%Q 1%Q). vm_compute in H. discriminate H.
Qed.

(** C8: the hypotheses of [gap_augmentation_monotone] hold at scenario A. *)
Lemma gap_augmentation_monotone_witness :
  (1 <= 5 /\ 0 <= 3 /\ (0 <= 10)%Q /\ (0 < 1)%Q) /\
  0 <= fst (gap_augmentation_expression 5 3 10 1) /\
  3 <= snd (gap_augmentation_expression 5 3 10 1).
Proof.
  split; [split; [lia | split; [lia | split; unfold Qle, Qlt; simpl; lia]]|].
  apply (gap_augmentation_monotone 5 3 10 1); [lia | lia | | ]; unfold Qle, Qlt; simpl; lia.
Defined.

(** ** Cascades *)

Lemma _cascade_widening_snoc (L n : Z) (delay : Q) (ks : list Q) (k_last : Q) :
  _cascade_widening L n delay (ks ++ [k_last]) =
  Some (gap_augmentation_expression L
          (fold_left (fun nans k => snd (gap_augmentation_expression L nans delay k)) ks n)
          delay k_last).
Proof.
  unfold _cascade_widening.
  destruct (ks ++ [k_last]) as [|k0 rest] eqn:E.
  - destruct ks; discriminate E.
  - rewrite <- E, removelast_last, last_last. reflexivity.
Qed.

(** C7: the cascade feeds the total of every stage but the last into the
    next one and returns the last stage's pair; the named compositions
    use the multipliers [[1, 1, 2]], [[1, 3]], [[1, 7]], and the factorized
    X2 widening is one more stage with multiplier [4] after X1. *)
Theorem cascade_widening_compositions (L n : Z) (delay : Q) (ks : list Q) (k_last : Q) :
  let widen := fun nans k => gap_augmentation_expression L nans delay k in
  _cascade_widening L n delay (ks ++ [k_last])
    = Some (widen (fold_left (fun nans k => snd (widen nans k)) ks n) k_last) /\
  widening_gap_X1 L n delay
    = Some (widen (snd (widen (snd (widen n 1%Q)) 1%Q)) 2%Q) /\
  widening_gap_X1_unfactorized L n delay = Some (widen (snd (widen n 1%Q)) 3%Q) /\
  widening_gap_X2_unfactorized L n delay = Some (widen (snd (widen n 1%Q)) 7%Q) /\
  widening_gap_X2 L n delay
    = Some (widen (snd (widen (snd (widen (snd (widen n 1%Q)) 1%Q)) 2%Q)) 4%Q).
Proof.
  intros widen. subst widen.
  split; [apply _cascade_widening_snoc|].
  split; [reflexivity|]. split; [reflexivity|]. split; reflexivity.
Qed.

(** ** np.arange *)

Lemma arange_nil (s e : Z) : e <= s -> arange s e = [].
Proof. intros H. unfold arange. replace (Z.to_nat (e - s)) with 0%nat by lia. reflexivity. Qed.

Lemma arange_cons (s e : Z) : s < e -> arange s e = s :: arange (s + 1) e.
Proof.
  intros H. unfold arange.
  replace (Z.to_nat (e - s)) with (S (Z.to_nat (e - (s + 1)))) by lia.
  cbn [seq map]. f_equal; [lia|].
  rewrite <- seq_shift, map_map. apply map_ext. intros k. lia.
Qed.

Lemma arange_length (s e : Z) : length (arange s e) = Z.to_nat (e - s).
Proof. unfold arange. now rewrite length_map, length_seq. Qed.

Lemma nth_error_arange (s e : Z) (n : nat) :
  (n < Z.to_nat (e - s))%nat -> nth_error (arange s e) n = Some (s + Z.of_nat n).
Proof.
  intros H. unfold arange. rewrite nth_error_map, nth_error_seq.
  destruct (Nat.ltb_spec n (Z.to_nat (e - s))); [reflexivity | lia].
Qed.

Lemma In_arange (s e i : Z) : In i (arange s e) <-> s <= i < e.
Proof.
  unfold arange. rewrite in_map_iff. split.
  - intros [k [<- Hk]]. apply in_seq in Hk. lia.
  - intros H. exists (Z.to_nat (i - s)). split; [lia|]. apply in_seq. lia.
Qed.

(** ** construct_mask_single_gap *)

Lemma count_nan_tail (mid e s : Z) :
  mid <= e ->
  length (filter isnan
     (map (fun i => if (mid <=? i) && (i <? e) then NaN else Num 1) (arange s e)))
  = Z.to_nat (e - Z.max s mid).
Proof.
  intros Hme. remember (Z.to_nat (e - s)) as n eqn:En. revert s En.
  induction n as [|n IH]; intros s En.
  - rewrite arange_nil by lia. simpl. lia.
  - rewrite arange_cons by lia. cbn [map filter].
    specialize (IH (s + 1) ltac:(lia)).
    destruct (Z.leb_spec mid s); destruct (Z.ltb_spec s e); simpl; lia.
Qed.

(** C10: when [len / 2 + N_nans] exceeds [len], the gap is cut at the end
    of the array: [len - len / 2] NaNs (fewer than [N_nans]) from index
    [len / 2] on, [1.0] before. *)
Theorem construct_mask_single_gap_truncates (N_nans len : Z) :
  1 <= len -> 0 <= N_nans -> len < len / 2 + N_nans ->
  let m := construct_mask_single_gap N_nans len in
  length m = Z.to_nat len /\
  length (filter isnan m) = Z.to_nat (len - len / 2) /\
  len - len / 2 < N_nans /\
  (forall i, 0 <= i < len / 2 -> nth_error m (Z.to_nat i) = Some (Num 1)) /\
  (forall i, len / 2 <= i < len -> nth_error m (Z.to_nat i) = Some NaN).
Proof.
  intros Hlen HN Hover m.
  assert (Hmid : 0 <= len / 2 <= len) by (split; [apply Z.div_pos | apply Z.div_le_upper_bound]; lia).
  assert (Hm : m = map (fun i => if (len / 2 <=? i) && (i <? len) then NaN else Num 1)
                       (arange 0 len)).
  { subst m. unfold construct_mask_single_gap, slice_bound.
    destruct (Z.ltb_spec (len / 2) 0); [lia|].
    destruct (Z.ltb_spec (len / 2 + N_nans) 0); [lia|].
    rewrite Z.min_l by lia. rewrite (Z.min_r (len / 2 + N_nans) len) by lia.
    reflexivity. }
  rewrite Hm. split; [|split; [|split; [|split]]].
  - rewrite length_map, arange_length. f_equal. lia.
  - rewrite count_nan_tail by lia. f_equal. lia.
  - lia.
  - intros i Hi. rewrite nth_error_map, nth_error_arange by lia. simpl.
    rewrite Z2Nat.id by lia.
    destruct (Z.leb_spec (len / 2) i); [lia|]. reflexivity.
  - intros i Hi. rewrite nth_error_map, nth_error_arange by lia. simpl.
    rewrite Z2Nat.id by lia.
    destruct (Z.leb_spec (len / 2) i); [|lia].
    destruct (Z.ltb_spec i len); [reflexivity|lia].
Qed.

(** C10: the hypotheses hold for [N_nans = 8], [len = 10]: NaN at 5..9. *)
Lemma construct_mask_single_gap_truncates_witness :
  (1 <= 10 /\ 0 <= 8 /\ 10 < 10 / 2 + 8) /\
  length (filter isnan (construct_mask_single_gap 8 10)) = Z.to_nat (10 - 10 / 2).
Proof.
  split; [split; [lia | split; [lia | vm_compute; reflexivity]]|].
  apply (construct_mask_single_gap_truncates 8 10); [lia | lia | vm_compute; reflexivity].
Defined.

(** ** merge_intervals *)

(** C4: [merge_intervals] sorts the caller's list in place: called on
    [[(3, 5), (0, 2)]], the argument holds [[(0, 2), (3, 5)]] afterwards. *)
Theorem merge_intervals_reorders_argument :
  merge_intervals_call [(3, 5); (0, 2)] = ([(0, 2); (3, 5)], [(0, 5)]) /\
  fst (merge_intervals_call [(3, 5); (0, 2)]) <> [(3, 5); (0, 2)].
Proof. split; [reflexivity | discriminate]. Qed.

Lemma fold_merge_step (rest : list (Z * Z)) :
  forall prev done,
  rev (fold_left merge_step rest (prev :: done)) = rev done ++ merge_from prev rest.
Proof.
  induction rest as [|current rest IH]; intros prev done; [reflexivity|].
  cbn [fold_left merge_from]. unfold merge_step at 2.
  destruct (fst current <=? snd prev + 1).
  - apply IH.
  - rewrite IH. cbn [rev]. now rewrite <- app_assoc.
Qed.

Lemma merge_intervals_eq (intervals : list (Z * Z)) :
  merge_intervals intervals =
  match sort_by fst intervals with
  | [] => []
  | first :: rest => merge_from first rest
  end.
Proof.
  unfold merge_intervals, merge_intervals_call.
  destruct intervals as [|iv l]; [reflexivity|].
  destruct (sort_by fst (iv :: l)) as [|first rest]; [reflexivity|].
  cbn [snd]. apply (fold_merge_step rest first []).
Qed.

(** *** Insertion sort *)

Section SortBy.
Context {A : Type} (key : A -> Z).

Lemma insert_by_perm (x : A) (l : list A) : Permutation (x :: l) (insert_by key x l).
Proof.
  induction l as [|y l IH]; [reflexivity|]. cbn [insert_by].
  destruct (key x <=? key y); [reflexivity|].
  transitivity (y :: x :: l); [apply perm_swap | now apply perm_skip].
Qed.

Lemma sort_by_perm (l : list A) : Permutation l (sort_by key l).
Proof.
  induction l as [|x l IH]; [reflexivity|]. cbn [sort_by].
  rewrite <- insert_by_perm. now apply perm_skip.
Qed.

Lemma insert_by_sorted (x : A) (l : list A) :
  StronglySorted (fun a b => key a <= key b) l ->
  StronglySorted (fun a b => key a <= key b) (insert_by key x l).
Proof.
  induction l as [|y l IH]; intros Hs; cbn [insert_by].
  - repeat constructor.
  - apply StronglySorted_inv in Hs as [Hl Hy].
    destruct (Z.leb_spec (key x) (key y)).
    + constructor; [now constructor|]. constructor; [exact H|].
      rewrite Forall_forall in *. intros z Hz. specialize (Hy z Hz). lia.
    + constructor; [now apply IH|].
      rewrite Forall_forall in *. intros z Hz.
      apply (Permutation_in _ (Permutation_sym (insert_by_perm x l))) in Hz.
      destruct Hz as [<-|Hz]; [lia | now apply Hy].
Qed.

Lemma sort_by_sorted (l : list A) :
  StronglySorted (fun a b => key a <= key b) (sort_by key l).
Proof.
  induction l as [|x l IH]; [constructor|]. now apply insert_by_sorted.
Qed.

Lemma sort_by_id (l : list A) :
  StronglySorted (fun a b => key a <= key b) l -> sort_by key l = l.
Proof.
  induction l as [|x l IH]; intros Hs; [reflexivity|].
  apply StronglySorted_inv in Hs as [Hl Hx]. cbn [sort_by]. rewrite (IH Hl).
  destruct l as [|y l]; [reflexivity|]. cbn [insert_by].
  apply Forall_inv in Hx. now apply Z.leb_le in Hx as ->.
Qed.

End SortBy.

(** *** Coverage *)

Lemma covers_cons (iv : Z * Z) (l : list (Z * Z)) (i : Z) :
  covers (iv :: l) i = ((fst iv <=? i) && (i <=? snd iv)) || covers l i.
Proof. reflexivity. Qed.

Lemma covers_app (l1 l2 : list (Z * Z)) (i : Z) :
  covers (l1 ++ l2) i = covers l1 i || covers l2 i.
Proof. unfold covers. apply existsb_app. Qed.

Lemma covers_perm (l1 l2 : list (Z * Z)) (i : Z) :
  Permutation l1 l2 -> covers l1 i = covers l2 i.
Proof.
  induction 1 as [| |x y l| ]; try reflexivity.
  - rewrite !(covers_cons x). congruence.
  - rewrite !covers_cons. now rewrite !orb_assoc, (orb_comm (_ && _) (_ && _)).
  - congruence.
Qed.

Lemma covers_true (l : list (Z * Z)) (i : Z) :
  covers l i = true <-> exists s e, In (s, e) l /\ s <= i <= e.
Proof.
  unfold covers. rewrite existsb_exists. split.
  - intros [[s e] [Hin Hb]]. apply andb_true_iff in Hb as [H1 H2].
    apply Z.leb_le in H1, H2. eauto.
  - intros (s & e & Hin & Hr). exists (s, e). split; [exact Hin|].
    apply andb_true_iff. simpl. split; apply Z.leb_le; lia.
Qed.

(** *** The merge loop *)

Definition separated (a b : Z * Z) : Prop := snd a + 1 < fst b.
Definition start_le (a b : Z * Z) : Prop := fst a <= fst b.

Lemma merge_from_covers (rest : list (Z * Z)) :
  forall prev, StronglySorted start_le (prev :: rest) ->
  forall i, covers (merge_from prev rest) i = covers (prev :: rest) i.
Proof.
  induction rest as [|current rest IH]; intros prev Hs i; [reflexivity|].
  apply StronglySorted_inv in Hs as [Hs Hprev].
  apply Forall_inv in Hprev as Hpc. unfold start_le in Hpc.
  cbn [merge_from]. destruct (Z.leb_spec (fst current) (snd prev + 1)) as [Hle|Hgt].
  - rewrite IH.
    + rewrite !covers_cons, orb_assoc. f_equal. simpl.
      destruct (Z.leb_spec (fst prev) i), (Z.leb_spec i (snd prev)),
        (Z.leb_spec (fst current) i), (Z.leb_spec i (snd current)),
        (Z.leb_spec i (Z.max (snd prev) (snd current))); simpl; lia.
    + apply StronglySorted_inv in Hs as [Hs' Hc]. constructor; [exact Hs'|].
      apply Forall_inv_tail in Hprev. exact Hprev.
  - rewrite covers_cons, IH by exact Hs. reflexivity.
Qed.

Lemma merge_intervals_covers (intervals : list (Z * Z)) (i : Z) :
  covers (merge_intervals intervals) i = covers intervals i.
Proof.
  rewrite merge_intervals_eq, (covers_perm _ _ i (sort_by_perm fst intervals)).
  pose proof (sort_by_sorted fst intervals) as Hs.
  destruct (sort_by fst intervals) as [|first rest]; [reflexivity|].
  now apply merge_from_covers.
Qed.

Lemma merge_from_starts (rest : list (Z * Z)) :
  forall prev, StronglySorted start_le (prev :: rest) ->
  Forall (start_le prev) (merge_from prev rest).
Proof.
  induction rest as [|current rest IH]; intros prev Hs.
  - repeat constructor. unfold start_le. lia.
  - apply StronglySorted_inv in Hs as [Hs Hprev].
    apply Forall_inv in Hprev as Hpc. apply Forall_inv_tail in Hprev.
    apply StronglySorted_inv in Hs as [Hs Hc].
    cbn [merge_from]. destruct (fst current <=? snd prev + 1).
    + apply (IH (fst prev, Z.max (snd prev) (snd current))). now constructor.
    + constructor; [unfold start_le; lia|].
      eapply Forall_impl; [|apply IH; now constructor].
      unfold start_le in *. intros a Ha. lia.
Qed.

Lemma merge_from_separated (rest : list (Z * Z)) :
  forall prev, StronglySorted start_le (prev :: rest) ->
  ForallOrdPairs separated (merge_from prev rest).
Proof.
  induction rest as [|current rest IH]; intros prev Hs.
  - repeat constructor.
  - apply StronglySorted_inv in Hs as [Hs Hprev].
    apply Forall_inv_tail in Hprev as Hpr.
    cbn [merge_from]. destruct (Z.leb_spec (fst current) (snd prev + 1)).
    + apply IH. apply StronglySorted_inv in Hs as [Hs' _]. now constructor.
    + constructor; [|now apply IH].
      eapply Forall_impl; [|now apply merge_from_starts].
      unfold start_le, separated. intros a Ha. lia.
Qed.

Lemma merge_from_wf (rest : list (Z * Z)) :
  forall prev, Forall (fun iv => fst iv <= snd iv) (prev :: rest) ->
  Forall (fun iv => fst iv <= snd iv) (merge_from prev rest).
Proof.
  induction rest as [|current rest IH]; intros prev Hw; [exact Hw|].
  inversion Hw as [|? ? Hp Hw']. inversion Hw' as [|? ? Hc Hr].
  cbn [merge_from]. destruct (fst current <=? snd prev + 1).
  - apply IH. constructor; [simpl; lia | exact Hr].
  - constructor; [exact Hp | now apply IH].
Qed.

Lemma separated_sorted (l : list (Z * Z)) :
  Forall (fun iv => fst iv <= snd iv) l -> ForallOrdPairs separated l ->
  StronglySorted start_le l.
Proof.
  induction l as [|a l IH]; intros Hw Hp; [constructor|].
  inversion Hw as [|? ? Ha Hl]. inversion Hp as [|? ? Hsep Hpl].
  constructor; [now apply IH|].
  eapply Forall_impl; [|exact Hsep]. unfold separated, start_le. intros b Hb. lia.
Qed.

Lemma merge_from_separated_id (rest : list (Z * Z)) :
  forall prev, ForallOrdPairs separated (prev :: rest) -> merge_from prev rest = prev :: rest.
Proof.
  induction rest as [|current rest IH]; intros prev Hp; [reflexivity|].
  inversion Hp as [|? ? Hsep Hpl]. apply Forall_inv in Hsep. unfold separated in Hsep.
  cbn [merge_from]. destruct (Z.leb_spec (fst current) (snd prev + 1)); [lia|].
  now rewrite IH.
Qed.

Lemma merge_intervals_structure (intervals : list (Z * Z)) :
  Forall (fun iv => fst iv <= snd iv) intervals ->
  Forall (fun iv => fst iv <= snd iv) (merge_intervals intervals) /\
  ForallOrdPairs separated (merge_intervals intervals).
Proof.
  intros Hw. rewrite merge_intervals_eq.
  pose proof (sort_by_sorted fst intervals) as Hs.
  assert (Hw' : Forall (fun iv => fst iv <= snd iv) (sort_by fst intervals)).
  { rewrite Forall_forall in *. intros x Hx. apply Hw.
    eapply Permutation_in; [symmetry; apply sort_by_perm | exact Hx]. }
  destruct (sort_by fst intervals) as [|first rest]; [split; constructor|].
  split; [now apply merge_from_wf | now apply merge_from_separated].
Qed.

(** C5: on intervals with [start <= end], [merge_intervals] returns
    well-formed intervals sorted by start, pairwise separated by at least
    one uncovered index, covering exactly the indices of its input, and it
    is the identity on its own output; scenario C gives [[(0, 5), (10, 12)]]. *)
Theorem merge_intervals_canonical (intervals : list (Z * Z)) :
  Forall (fun iv => fst iv <= snd iv) intervals ->
  let merged := merge_intervals intervals in
  StronglySorted (fun a b => fst a <= fst b) merged /\
  ForallOrdPairs (fun a b => snd a + 1 < fst b) merged /\
  Forall (fun iv => fst iv <= snd iv) merged /\
  (forall i, covers merged i = covers intervals i) /\
  merge_intervals merged = merged /\
  merge_intervals [(0, 2); (3, 5); (10, 12)] = [(0, 5); (10, 12)].
Proof.
  intros Hw merged.
  destruct (merge_intervals_structure intervals Hw) as [Hmw Hsep].
  fold merged in Hmw, Hsep.
  assert (Hsorted : StronglySorted start_le merged) by now apply separated_sorted.
  split; [exact Hsorted|]. split; [exact Hsep|]. split; [exact Hmw|].
  split; [apply merge_intervals_covers|]. split; [|reflexivity].
  rewrite merge_intervals_eq, sort_by_id by exact Hsorted.
  destruct merged as [|first rest]; [reflexivity|].
  now apply merge_from_separated_id.
Qed.

(** C5: the hypothesis holds for the intervals of scenario C. *)
Lemma merge_intervals_canonical_witness :
  Forall (fun iv => fst iv <= snd iv) [(0, 2); (3, 5); (10, 12)] /\
  merge_intervals (merge_intervals [(0, 2); (3, 5); (10, 12)])
    = merge_intervals [(0, 2); (3, 5); (10, 12)].
Proof.
  assert (H : Forall (fun iv => fst iv <= snd iv) [(0, 2); (3, 5); (10, 12)]).
  { repeat constructor; simpl; lia. }
  split; [exact H|].
  apply (merge_intervals_canonical [(0, 2); (3, 5); (10, 12)] H).
Defined.

(** ** nans_blocks_function *)

Lemma isnan_true (x : flt) : isnan x = true <-> x = NaN.
Proof. destruct x; simpl; split; congruence. Qed.

Lemma In_enumerate (xs : list flt) :
  forall k i v, In (i, v) (enumerate k xs) <->
  k <= i /\ nth_error xs (Z.to_nat (i - k)) = Some v.
Proof.
  induction xs as [|x xs IH]; intros k i v; cbn [enumerate In].
  - split; [tauto|]. intros [_ H]. destruct (Z.to_nat (i - k)); discriminate H.
  - rewrite IH. split.
    + intros [Heq|[Hk Hn]].
      * inversion Heq; subst. replace (i - i) with 0 by lia. split; [lia | reflexivity].
      * split; [lia|]. replace (Z.to_nat (i - k)) with (S (Z.to_nat (i - (k + 1)))) by lia.
        exact Hn.
    + intros [Hk Hn]. destruct (Z.eq_dec i k) as [->|Hne].
      * left. replace (k - k) with 0 in Hn by lia. simpl in Hn. congruence.
      * right. split; [lia|].
        replace (Z.to_nat (i - k)) with (S (Z.to_nat (i - (k + 1)))) in Hn by lia.
        exact Hn.
Qed.

Lemma In_nan_indices (xs : list flt) (i : Z) :
  In i (nan_indices xs) <-> 0 <= i /\ nth_error xs (Z.to_nat i) = Some NaN.
Proof.
  unfold nan_indices. rewrite in_map_iff. split.
  - intros [[j v] [Hj Hin]]. simpl in Hj. subst j.
    apply filter_In in Hin as [Hin Hn]. simpl in Hn. apply isnan_true in Hn. subst v.
    apply In_enumerate in Hin. now rewrite Z.sub_0_r in Hin.
  - intros [Hi Hn]. exists (i, NaN). split; [reflexivity|].
    apply filter_In. split; [|reflexivity].
    apply In_enumerate. now rewrite Z.sub_0_r.
Qed.

Lemma enumerate_nan_sorted (xs : list flt) :
  forall k,
  StronglySorted Z.lt (map fst (filter (fun ix => isnan (snd ix)) (enumerate k xs))) /\
  Forall (Z.le k) (map fst (filter (fun ix => isnan (snd ix)) (enumerate k xs))).
Proof.
  induction xs as [|x xs IH]; intros k; [split; constructor|].
  destruct (IH (k + 1)) as [Hs Hf]. cbn [enumerate filter snd].
  assert (Hf' : Forall (Z.le k)
                  (map fst (filter (fun ix => isnan (snd ix)) (enumerate (k + 1) xs)))).
  { eapply Forall_impl; [|exact Hf]. intros a Ha. lia. }
  destruct (isnan x); cbn [map fst]; [|split; assumption].
  split; constructor; try assumption; try lia.
  eapply Forall_impl; [|exact Hf]. intros a Ha. lia.
Qed.

Lemma StronglySorted_app_inv {A} (R : A -> A -> Prop) (l1 l2 : list A) :
  StronglySorted R (l1 ++ l2) -> StronglySorted R l1 /\ StronglySorted R l2.
Proof.
  induction l1 as [|a l1 IH]; intros Hs; [split; [constructor | exact Hs]|].
  apply StronglySorted_inv in Hs as [Hs Ha]. destruct (IH Hs) as [H1 H2].
  split; [|exact H2]. constructor; [exact H1|].
  rewrite Forall_forall in *. intros x Hx. apply Ha, in_or_app. now left.
Qed.

Lemma split_blocks_concat (rest : list Z) :
  forall block prev, concat (split_blocks block prev rest) = rev block ++ rest.
Proof.
  induction rest as [|x rest IH]; intros block prev; cbn [split_blocks].
  - simpl. now rewrite app_nil_r.
  - destruct (x - prev >? 1); cbn [concat]; rewrite IH; cbn [rev];
      now rewrite <- app_assoc.
Qed.

Lemma split_blocks_sorted (rest : list Z) :
  forall block prev, block <> [] -> StronglySorted Z.lt (rev block ++ rest) ->
  forall b, In b (split_blocks block prev rest) -> b <> [] /\ StronglySorted Z.lt b.
Proof.
  induction rest as [|x rest IH]; intros block prev Hne Hs b Hb; cbn [split_blocks] in Hb.
  - destruct Hb as [<-|[]]. rewrite app_nil_r in Hs. split; [|exact Hs].
    intros H. apply Hne. rewrite <- (rev_involutive block), H. reflexivity.
  - destruct (x - prev >? 1).
    + destruct Hb as [<-|Hb].
      * apply StronglySorted_app_inv in Hs as [Hs _]. split; [|exact Hs].
        intros H. apply Hne. rewrite <- (rev_involutive block), H. reflexivity.
      * apply (IH [x] x); [discriminate| |exact Hb].
        apply StronglySorted_app_inv in Hs as [_ Hs]. exact Hs.
    + apply (IH (x :: block) x); [discriminate| |exact Hb].
      cbn [rev]. now rewrite <- app_assoc.
Qed.

Lemma sorted_hd_last (b : list Z) (x : Z) :
  StronglySorted Z.lt b -> In x b -> hd 0 b <= x <= last b 0.
Proof.
  revert x. induction b as [|y b IH]; intros x Hs Hx; [destruct Hx|].
  apply StronglySorted_inv in Hs as [Hs Hy]. cbn [hd].
  destruct b as [|z b].
  - destruct Hx as [<-|[]]. simpl. lia.
  - assert (Hz : y < z) by now apply Forall_inv in Hy.
    assert (Hlast : z <= last (z :: b) 0) by (apply (IH z); [exact Hs | now left]).
    change (last (y :: z :: b) 0) with (last (z :: b) 0).
    destruct Hx as [<-|Hx].
    + lia.
    + rewrite Forall_forall in Hy. specialize (Hy x Hx). specialize (IH x Hs Hx). cbn [hd] in IH. lia.
Qed.

Lemma nans_blocks_concat (xs : list flt) :
  concat (nans_blocks_function xs) = nan_indices xs.
Proof.
  unfold nans_blocks_function. destruct (nan_indices xs) as [|i rest]; [reflexivity|].
  apply split_blocks_concat.
Qed.

Lemma nans_blocks_sorted (xs : list flt) (b : list Z) :
  In b (nans_blocks_function xs) -> b <> [] /\ StronglySorted Z.lt b.
Proof.
  unfold nans_blocks_function. pose proof (proj1 (enumerate_nan_sorted xs 0)) as Hs.
  fold (nan_indices xs) in Hs.
  destruct (nan_indices xs) as [|i rest]; [intros []|].
  apply split_blocks_sorted; [discriminate | exact Hs].
Qed.

Lemma nans_blocks_nil (xs : list flt) :
  nans_blocks_function xs = [] <-> ~ In NaN xs.
Proof.
  split.
  - intros Hb Hin. apply In_nth_error in Hin as [n Hn].
    assert (Hi : In (Z.of_nat n) (nan_indices xs)).
    { apply In_nan_indices. rewrite Nat2Z.id. split; [lia | exact Hn]. }
    rewrite <- nans_blocks_concat, Hb in Hi. destruct Hi.
  - intros Hno. unfold nans_blocks_function.
    destruct (nan_indices xs) as [|i rest] eqn:E; [reflexivity|].
    assert (Hi : In i (nan_indices xs)) by (rewrite E; now left).
    apply In_nan_indices in Hi as [_ Hi]. exfalso. apply Hno.
    eapply nth_error_In. exact Hi.
Qed.

(** ** compute_nan_indices_delay *)

Lemma merge_from_not_nil (prev : Z * Z) (rest : list (Z * Z)) : merge_from prev rest <> [].
Proof.
  revert prev. induction rest as [|current rest IH]; intros prev; cbn [merge_from];
    [discriminate|]. destruct (_ <=? _); [apply IH | discriminate].
Qed.

Lemma merge_intervals_not_nil (intervals : list (Z * Z)) :
  intervals <> [] -> merge_intervals intervals <> [].
Proof.
  intros Hne. rewrite merge_intervals_eq.
  pose proof (Permutation_length (sort_by_perm fst intervals)) as Hlen.
  destruct (sort_by fst intervals) as [|first rest].
  - destruct intervals; [congruence | discriminate Hlen].
  - apply merge_from_not_nil.
Qed.

Lemma In_unique (l : list Z) (i : Z) : In i (unique l) <-> In i l.
Proof.
  unfold unique. rewrite nodup_In. split; apply Permutation_in.
  - symmetry. apply sort_by_perm.
  - apply sort_by_perm.
Qed.

Lemma In_ranges (merged : list (Z * Z)) (i : Z) :
  In i (concat (map (fun '(start, end_) => arange start (end_ + 1)) merged))
  <-> covers merged i = true.
Proof.
  rewrite in_concat, covers_true. split.
  - intros (r & Hr & Hi). apply in_map_iff in Hr as [[s e] [<- Hse]].
    apply In_arange in Hi. exists s, e. split; [exact Hse | lia].
  - intros (s & e & Hse & Hi). exists (arange s (e + 1)). split.
    + apply in_map_iff. exists (s, e). split; [reflexivity | exact Hse].
    + apply In_arange. lia.
Qed.

(** With at least one NaN block, the result is the all-ones array with NaN
    at every in-range index covered by the intervals of the blocks. *)
Lemma compute_nan_indices_delay_eq (object_w_nans : list flt) (delay order : Z) :
  nans_blocks_function object_w_nans <> [] ->
  compute_nan_indices_delay object_w_nans delay order =
  Some (map (fun i =>
               if covers (flat_map (block_intervals delay (Z.quot (order + 1) 2))
                                   (nans_blocks_function object_w_nans)) i
               then NaN else Num 1)
            (arange 0 (Z.of_nat (length object_w_nans)))).
Proof.
  intros Hne. unfold compute_nan_indices_delay.
  set (affected := flat_map _ _).
  assert (Ha : affected <> []).
  { subst affected. destruct (nans_blocks_function object_w_nans); [congruence | discriminate]. }
  pose proof (merge_intervals_covers affected) as Hcov.
  destruct (merge_intervals affected) as [|iv rest] eqn:Em;
    [exfalso; exact (merge_intervals_not_nil _ Ha Em)|].
  f_equal. apply map_ext_in. intros i Hi. apply In_arange in Hi.
  replace (existsb _ _) with (covers affected i); [reflexivity|].
  rewrite <- Hcov. apply eq_true_iff_eq.
  rewrite existsb_exists, <- In_ranges. split.
  - intros Hin. exists i. rewrite Z.eqb_refl. split; [|reflexivity].
    apply In_unique, filter_In. split; [exact Hin|].
    apply andb_true_iff. split; apply Z.leb_le || apply Z.ltb_lt; lia.
  - intros [j [Hj Hij]]. apply Z.eqb_eq in Hij. subst j.
    apply In_unique, filter_In in Hj. apply Hj.
Qed.

Lemma covers_flat_map (g : list Z -> list (Z * Z)) (blocks : list (list Z)) (i : Z) :
  covers (flat_map g blocks) i = existsb (fun b => covers (g b) i) blocks.
Proof.
  induction blocks as [|b blocks IH]; [reflexivity|].
  cbn [flat_map existsb]. now rewrite covers_app, IH.
Qed.

Lemma existsb_ext_eq {A} (f g : A -> bool) (l : list A) :
  (forall x, f x = g x) -> existsb f l = existsb g l.
Proof. intros H. induction l as [|x l IH]; [reflexivity|]. simpl. now rewrite H, IH. Qed.

Lemma nan_in_some_block (xs : list flt) (n : nat) :
  nth_error xs n = Some NaN ->
  exists b, In b (nans_blocks_function xs) /\ hd 0 b <= Z.of_nat n <= last b 0.
Proof.
  intros Hn.
  assert (Hi : In (Z.of_nat n) (concat (nans_blocks_function xs))).
  { rewrite nans_blocks_concat. apply In_nan_indices. rewrite Nat2Z.id. split; [lia | exact Hn]. }
  apply in_concat in Hi as [b [Hb Hi]]. exists b. split; [exact Hb|].
  apply sorted_hd_last; [apply (nans_blocks_sorted xs b Hb) | exact Hi].
Qed.

Lemma compute_nan_indices_delay_keeps_nans (object_w_nans : list flt) (delay order : Z) :
  In NaN object_w_nans ->
  exists out, compute_nan_indices_delay object_w_nans delay order = Some out /\
    length out = length object_w_nans /\
    (forall n, nth_error object_w_nans n = Some NaN -> nth_error out n = Some NaN) /\
    (forall n, nth_error out n = Some NaN -> (n < length object_w_nans)%nat).
Proof.
  intros Hin.
  assert (Hne : nans_blocks_function object_w_nans <> [])
    by (intros H; now apply nans_blocks_nil in H).
  rewrite (compute_nan_indices_delay_eq _ _ _ Hne).
  eexists. split; [reflexivity|].
  assert (Hlen : length (map (fun i => if covers (flat_map (block_intervals delay (Z.quot (order + 1) 2))
          (nans_blocks_function object_w_nans)) i then NaN else Num 1)
          (arange 0 (Z.of_nat (length object_w_nans)))) = length object_w_nans).
  { rewrite length_map, arange_length. lia. }
  split; [exact Hlen|]. split.
  - intros n Hn.
    assert (Hlt : (n < length object_w_nans)%nat)
      by (apply nth_error_Some; congruence).
    rewrite nth_error_map, nth_error_arange by lia. cbn [option_map].
    destruct (nan_in_some_block _ _ Hn) as [b [Hb Hr]].
    replace (covers _ (0 + Z.of_nat n)) with true; [reflexivity|].
    symmetry. apply covers_true. exists (hd 0 b), (last b 0). split; [|lia].
    apply in_flat_map. exists b. split; [exact Hb|]. now left.
  - intros n Hn. rewrite <- Hlen. apply nth_error_Some. congruence.
Qed.

(** C6: when the input holds a NaN, the output has the input's length,
    keeps every NaN of the input, and all its NaN indices are in range. *)
Theorem compute_nan_indices_delay_conservative (object_w_nans : list flt) (delay order : Z) :
  In NaN object_w_nans ->
  exists out, compute_nan_indices_delay object_w_nans delay order = Some out /\
    length out = length object_w_nans /\
    (forall n, nth_error object_w_nans n = Some NaN -> nth_error out n = Some NaN) /\
    (forall n, nth_error out n = Some NaN -> (n < length object_w_nans)%nat).
Proof. apply compute_nan_indices_delay_keeps_nans. Qed.

(** C6: the hypothesis holds for the mask of scenario D. *)
Lemma compute_nan_indices_delay_conservative_witness :
  In NaN scenario_D_mask /\
  exists out, compute_nan_indices_delay scenario_D_mask 5 5 = Some out /\
    length out = length scenario_D_mask.
Proof.
  assert (H : In NaN scenario_D_mask) by (vm_compute; tauto).
  split; [exact H|].
  destruct (compute_nan_indices_delay_conservative scenario_D_mask 5 5 H)
    as [out [Hout [Hlen _]]].
  exists out. split; [exact Hout | exact Hlen].
Defined.

(** C1: in scenario D (gap at 9..11, [delay = 5], [order = 5], [p = 3]) the
    output is not NaN exactly at 9..18: the delayed range of the code ends
    at [11 + 5 - (1 - 3) + 1 = 19]. *)
Theorem scenario_D_not_9_to_18 :
  compute_nan_indices_delay scenario_D_mask 5 5 <>
  Some (map (fun i => if (9 <=? i) && (i <=? 18) then NaN else Num 1) (arange 0 20)).
Proof. vm_compute. discriminate. Qed.

(** C1 (amended): for an input with at least one NaN, with
    [p = int((order + 1) / 2)], index [i] of the output is NaN exactly when
    some NaN block [[f .. l]] of the input has [f <= i <= l] or
    [f + delay - p + 1 <= i <= l + delay + p]; it is [1.0] elsewhere.
    In scenario D the output is NaN exactly at 9..19. *)
Theorem compute_nan_indices_delay_ranges (object_w_nans : list flt) (delay order : Z) :
  In NaN object_w_nans ->
  let p := Z.quot (order + 1) 2 in
  (exists out, compute_nan_indices_delay object_w_nans delay order = Some out /\
    length out = length object_w_nans /\
    forall n, (n < length object_w_nans)%nat ->
      nth_error out n =
      Some (if existsb (fun b =>
                 let f := hd 0 b in
                 let l := last b 0 in
                 ((f <=? Z.of_nat n) && (Z.of_nat n <=? l)) ||
                 ((f + delay - p + 1 <=? Z.of_nat n) && (Z.of_nat n <=? l + delay + p)))
               (nans_blocks_function object_w_nans)
            then NaN else Num 1)) /\
  compute_nan_indices_delay scenario_D_mask 5 5 =
  Some (map (fun i => if (9 <=? i) && (i <=? 19) then NaN else Num 1) (arange 0 20)).
Proof.
  intros Hin p. split; [|vm_compute; reflexivity].
  assert (Hne : nans_blocks_function object_w_nans <> [])
    by (intros H; now apply nans_blocks_nil in H).
  rewrite (compute_nan_indices_delay_eq _ _ _ Hne).
  eexists. split; [reflexivity|]. split.
  - rewrite length_map, arange_length. lia.
  - intros n Hn. rewrite nth_error_map, nth_error_arange by lia. cbn [option_map].
    rewrite Z.add_0_l, covers_flat_map.
    erewrite existsb_ext_eq; [reflexivity|].
    intros b. unfold block_intervals, covers. cbn [existsb fst snd].
    rewrite orb_false_r. fold p. do 3 f_equal. lia.
Qed.

(** C1: the hypothesis holds for the mask of scenario D. *)
Lemma compute_nan_indices_delay_ranges_witness :
  In NaN scenario_D_mask /\
  compute_nan_indices_delay scenario_D_mask 5 5 =
  Some (map (fun i => if (9 <=? i) && (i <=? 19) then NaN else Num 1) (arange 0 20)).
Proof.
  assert (H : In NaN scenario_D_mask) by (vm_compute; tauto).
  split; [exact H|].
  exact (proj2 (compute_nan_indices_delay_ranges scenario_D_mask 5 5 H)).
Defined.

Lemma compute_nan_indices_delay_none (object_w_nans : list flt) (delay order : Z) :
  compute_nan_indices_delay object_w_nans delay order = None <-> ~ In NaN object_w_nans.
Proof.
  split.
  - intros Hnone Hin.
    destruct (compute_nan_indices_delay_keeps_nans object_w_nans delay order Hin)
      as [out [Hout _]]. congruence.
  - intros Hno. apply nans_blocks_nil in Hno.
    unfold compute_nan_indices_delay. rewrite Hno. reflexivity.
Qed.

Lemma compute_nan_indices_delay_some_nan (object_w_nans : list flt) (delay order : Z) :
  In NaN object_w_nans ->
  exists out, compute_nan_indices_delay object_w_nans delay order = Some out /\ In NaN out.
Proof.
  intros Hin.
  destruct (compute_nan_indices_delay_keeps_nans object_w_nans delay order Hin)
    as [out [Hout [_ [Hkeep _]]]].
  exists out. split; [exact Hout|].
  apply In_nth_error in Hin as [n Hn]. eapply nth_error_In. apply Hkeep. exact Hn.
Qed.

(** C2: on an input without NaN (the empty array included) the block
    list is empty, but [compute_nan_indices_delay], and with it [mask_eta]
    and [mask_TDI_X], raise: [np.concatenate] is called on an empty list. *)
Theorem compute_nan_indices_delay_no_nan_raises
    (object_w_nans : list flt) (delay order : Z) (delay_f : Q) (generation : Z) :
  (nans_blocks_function object_w_nans = [] <-> ~ In NaN object_w_nans) /\
  (compute_nan_indices_delay object_w_nans delay order = None <-> ~ In NaN object_w_nans) /\
  (mask_eta object_w_nans delay_f order = None <-> ~ In NaN object_w_nans) /\
  (mask_TDI_X object_w_nans delay_f order generation = None <-> ~ In NaN object_w_nans) /\
  compute_nan_indices_delay [] 0 45 = None /\
  compute_nan_indices_delay [Num 1; Num 1; Num 1] 0 45 = None.
Proof.
  split; [apply nans_blocks_nil|]. split; [apply compute_nan_indices_delay_none|].
  split; [apply compute_nan_indices_delay_none|].
  split; [|split; reflexivity].
  unfold mask_TDI_X. split.
  - intros Hnone Hin.
    destruct (compute_nan_indices_delay_some_nan object_w_nans (Qfloor delay_f) order Hin)
      as [eta [He Hi1]]. rewrite He in Hnone.
    destruct (compute_nan_indices_delay_some_nan eta (Qfloor delay_f) order Hi1)
      as [a12 [Ha Hi2]]. rewrite Ha in Hnone.
    destruct (compute_nan_indices_delay_some_nan a12 (Qfloor (2 * delay_f)) order Hi2)
      as [r12 [Hr Hi3]]. rewrite Hr in Hnone.
    destruct (generation =? 1); [discriminate|].
    destruct (compute_nan_indices_delay_some_nan r12 (Qfloor (4 * delay_f)) order Hi3)
      as [q21 [Hq _]]. congruence.
  - intros Hno. apply (compute_nan_indices_delay_none _ (Qfloor delay_f) order) in Hno.
    now rewrite Hno.
Qed.

(** * Further properties of the code *)

(** ** Blocks are maximal runs *)

Lemma last_rev_hd (block : list Z) : block <> [] -> last (rev block) 0 = hd 0 block.
Proof. destruct block as [|x t]; [congruence|]. intros _. cbn [rev hd]. apply last_last. Qed.

Lemma hd_rev_cons (x : Z) (block : list Z) :
  block <> [] -> hd 0 (rev (x :: block)) = hd 0 (rev block).
Proof.
  intros Hne. cbn [rev]. destruct (rev block) eqn:E; [|reflexivity].
  exfalso. apply Hne. rewrite <- (rev_involutive block), E. reflexivity.
Qed.

Lemma last_app_r (l1 l2 : list Z) (d : Z) : l2 <> [] -> last (l1 ++ l2) d = last l2 d.
Proof.
  intros Hne. induction l1 as [|a l1 IH]; [reflexivity|].
  rewrite <- app_comm_cons. cbn [last]. rewrite IH.
  destruct l1, l2; simpl; congruence.
Qed.

Lemma split_blocks_runs (rest : list Z) :
  forall pre0 block prev,
  block <> [] -> hd 0 block = prev ->
  Forall (Z.lt prev) rest -> StronglySorted Z.lt rest ->
  (forall i, hd 0 (rev block) <= i <= prev -> In i (rev block)) ->
  (pre0 = [] \/ last pre0 0 + 1 < hd 0 (rev block)) ->
  forall b, In b (split_blocks block prev rest) ->
    (forall i, hd 0 b <= i <= last b 0 -> In i b) /\
    exists pre post, pre0 ++ rev block ++ rest = pre ++ b ++ post /\
      (pre = [] \/ last pre 0 + 1 < hd 0 b) /\
      (post = [] \/ last b 0 + 1 < hd 0 post).
Proof.
  induction rest as [|x rest IH];
    intros pre0 block prev Hne Hhd Hlt Hs Hrun Hpre b Hb; cbn [split_blocks] in Hb.
  - destruct Hb as [<-|[]]. split; [rewrite last_rev_hd, Hhd by exact Hne; exact Hrun|].
    exists pre0, []. rewrite app_nil_r. split; [reflexivity|]. split; [exact Hpre | now left].
  - apply Forall_inv in Hlt as Hx. apply Forall_inv_tail in Hlt.
    apply StronglySorted_inv in Hs as [Hs Hxr].
    destruct (Z.gtb_spec (x - prev) 1) as [Hgap|Hnogap].
    + destruct Hb as [<-|Hb].
      * split; [rewrite last_rev_hd, Hhd by exact Hne; exact Hrun|].
        exists pre0, (x :: rest). split; [reflexivity|]. split; [exact Hpre|].
        right. rewrite last_rev_hd by exact Hne. simpl. lia.
      * assert (Hr1 : forall i, hd 0 (rev [x]) <= i <= x -> In i (rev [x])).
        { intros i Hi. simpl in Hi |- *. left. lia. }
        assert (Hp1 : pre0 ++ rev block = [] \/ last (pre0 ++ rev block) 0 + 1 < hd 0 (rev [x])).
        { right. rewrite last_app_r.
          - rewrite last_rev_hd by exact Hne. simpl. lia.
          - intros H. apply Hne. rewrite <- (rev_involutive block), H. reflexivity. }
        destruct (IH (pre0 ++ rev block) [x] x ltac:(discriminate) eq_refl Hxr Hs Hr1 Hp1 b Hb)
          as [Hr [pre [post [Heq Hc]]]].
        split; [exact Hr|]. exists pre, post. split; [|exact Hc].
        rewrite <- Heq. cbn [rev app]. now rewrite <- !app_assoc.
    + assert (Hxv : x = prev + 1) by lia. subst x.
      assert (Hr1 : forall i, hd 0 (rev (prev + 1 :: block)) <= i <= prev + 1 ->
                              In i (rev (prev + 1 :: block))).
      { rewrite hd_rev_cons by exact Hne. intros i Hi. cbn [rev]. apply in_or_app.
        destruct (Z.eq_dec i (prev + 1)) as [->|Hni]; [right; now left|].
        left. apply Hrun. lia. }
      assert (Hp1 : pre0 = [] \/ last pre0 0 + 1 < hd 0 (rev (prev + 1 :: block))).
      { now rewrite hd_rev_cons by exact Hne. }
      destruct (IH pre0 (prev + 1 :: block) (prev + 1) ltac:(discriminate) eq_refl Hxr Hs
                   Hr1 Hp1 b Hb) as [Hr [pre [post [Heq Hc]]]].
      split; [exact Hr|]. exists pre, post. split; [|exact Hc].
      rewrite <- Heq. cbn [rev]. now rewrite <- app_assoc.
Qed.

Lemma sorted_le_last (l : list Z) (x : Z) : StronglySorted Z.lt l -> In x l -> x <= last l 0.
Proof. intros Hs Hx. apply (sorted_hd_last l x Hs Hx). Qed.

Lemma sorted_ge_hd (l : list Z) (x : Z) : StronglySorted Z.lt l -> In x l -> hd 0 l <= x.
Proof. intros Hs Hx. apply (sorted_hd_last l x Hs Hx). Qed.

Lemma nan_indices_sorted (xs : list flt) : StronglySorted Z.lt (nan_indices xs).
Proof. apply (proj1 (enumerate_nan_sorted xs 0)). Qed.

Lemma nans_blocks_function_runs_core (object_w_nans : list flt) :
  concat (nans_blocks_function object_w_nans) = nan_indices object_w_nans /\
  (forall i, In i (nan_indices object_w_nans) <->
     0 <= i /\ nth_error object_w_nans (Z.to_nat i) = Some NaN) /\
  StronglySorted Z.lt (nan_indices object_w_nans) /\
  forall b, In b (nans_blocks_function object_w_nans) ->
    b <> [] /\
    (forall i, In i b <-> hd 0 b <= i <= last b 0) /\
    ~ In (hd 0 b - 1) (nan_indices object_w_nans) /\
    ~ In (last b 0 + 1) (nan_indices object_w_nans).
Proof.
  split; [apply nans_blocks_concat|]. split; [apply In_nan_indices|].
  pose proof (nan_indices_sorted object_w_nans) as Hs.
  split; [exact Hs|]. intros b Hb.
  destruct (nans_blocks_sorted _ _ Hb) as [Hne Hbs].
  assert (Hdec : (forall i, hd 0 b <= i <= last b 0 -> In i b) /\
    exists pre post, nan_indices object_w_nans = pre ++ b ++ post /\
      (pre = [] \/ last pre 0 + 1 < hd 0 b) /\ (post = [] \/ last b 0 + 1 < hd 0 post)).
  { unfold nans_blocks_function in Hb.
    destruct (nan_indices object_w_nans) as [|i rest]; [destruct Hb|].
    apply StronglySorted_inv in Hs as [Hs Hi].
    apply (split_blocks_runs rest [] [i] i); try assumption; try discriminate; try reflexivity.
    - intros j Hj. simpl in Hj |- *. left. lia.
    - now left. }
  destruct Hdec as [Hrun [pre [post [Heq [Hpre Hpost]]]]].
  split; [exact Hne|]. split.
  - intros i. split; [intros Hi; now apply sorted_hd_last | apply Hrun].
  - rewrite Heq in Hs |- *.
    apply StronglySorted_app_inv in Hs as [Hspre Hs'].
    apply StronglySorted_app_inv in Hs' as [_ Hspost].
    assert (Hh : In (hd 0 b) b) by (destruct b; [congruence | now left]).
    assert (Hl : hd 0 b <= last b 0) by (apply sorted_le_last; assumption).
    split; intros Hin; apply in_app_or in Hin as [Hin|Hin];
      try (apply in_app_or in Hin as [Hin|Hin]).
    + destruct Hpre as [->|Hpre]; [destruct Hin|].
      pose proof (sorted_le_last pre _ Hspre Hin). lia.
    + pose proof (sorted_ge_hd b _ Hbs Hin). lia.
    + destruct Hpost as [->|Hpost]; [destruct Hin|].
      pose proof (sorted_ge_hd post _ Hspost Hin). lia.
    + destruct Hpre as [->|Hpre]; [destruct Hin|].
      pose proof (sorted_le_last pre _ Hspre Hin). lia.
    + pose proof (sorted_le_last b _ Hbs Hin). lia.
    + destruct Hpost as [->|Hpost]; [destruct Hin|].
      pose proof (sorted_ge_hd post _ Hspost Hin). lia.
Qed.

(** X1: [nans_blocks_function] splits the NaN indices, in increasing order,
    into blocks; each block holds every index between its first and last
    one, and the indices just before and just after it are not NaN. *)
Theorem nans_blocks_function_runs (object_w_nans : list flt) :
  concat (nans_blocks_function object_w_nans) = nan_indices object_w_nans /\
  (forall i, In i (nan_indices object_w_nans) <->
     0 <= i /\ nth_error object_w_nans (Z.to_nat i) = Some NaN) /\
  StronglySorted Z.lt (nan_indices object_w_nans) /\
  forall b, In b (nans_blocks_function object_w_nans) ->
    b <> [] /\
    (forall i, In i b <-> hd 0 b <= i <= last b 0) /\
    ~ In (hd 0 b - 1) (nan_indices object_w_nans) /\
    ~ In (last b 0 + 1) (nan_indices object_w_nans).
Proof. apply nans_blocks_function_runs_core. Qed.

(** ** Monotonicity of the propagation *)

Lemma nan_indices_incl (xs ys : list flt) (i : Z) :
  (forall n, nth_error xs n = Some NaN -> nth_error ys n = Some NaN) ->
  In i (nan_indices xs) -> In i (nan_indices ys).
Proof.
  intros Hsub Hi. apply In_nan_indices in Hi as [Hi0 Hi].
  apply In_nan_indices. split; [exact Hi0 | now apply Hsub].
Qed.

(** A block of a mask lies inside a block of any mask with more NaNs. *)
Lemma block_within_block (xs ys : list flt) (b : list Z) :
  (forall n, nth_error xs n = Some NaN -> nth_error ys n = Some NaN) ->
  In b (nans_blocks_function xs) ->
  exists b', In b' (nans_blocks_function ys) /\ hd 0 b' <= hd 0 b /\ last b 0 <= last b' 0.
Proof.
  intros Hsub Hb.
  destruct (nans_blocks_function_runs_core xs) as [Hcx [_ [_ Hbx]]].
  destruct (nans_blocks_function_runs_core ys) as [Hcy [_ [_ Hby]]].
  destruct (Hbx b Hb) as [Hne [Hrun _]].
  assert (Hin : forall j, hd 0 b <= j <= last b 0 -> In j (nan_indices ys)).
  { intros j Hj. apply (nan_indices_incl xs ys j Hsub). rewrite <- Hcx.
    apply in_concat. exists b. split; [exact Hb | now apply Hrun]. }
  assert (Hf : In (hd 0 b) (concat (nans_blocks_function ys))).
  { rewrite Hcy. apply Hin. split; [lia|]. apply Hrun. destruct b; [congruence | now left]. }
  apply in_concat in Hf as [b' [Hb' Hf]].
  destruct (Hby b' Hb') as [_ [Hrun' [_ Hmax]]].
  apply Hrun' in Hf. exists b'. split; [exact Hb'|]. split; [lia|].
  destruct (Z.le_gt_cases (last b 0) (last b' 0)) as [Hle|Hgt]; [exact Hle|].
  exfalso. apply Hmax. apply Hin. lia.
Qed.

(** X2: marking more input samples as NaN never removes a NaN from the
    output of [compute_nan_indices_delay] (same delay and order). *)
Theorem compute_nan_indices_delay_monotone (xs ys : list flt) (delay order : Z) :
  length xs = length ys -> In NaN xs ->
  (forall n, nth_error xs n = Some NaN -> nth_error ys n = Some NaN) ->
  exists ox oy, compute_nan_indices_delay xs delay order = Some ox /\
    compute_nan_indices_delay ys delay order = Some oy /\
    forall n, nth_error ox n = Some NaN -> nth_error oy n = Some NaN.
Proof.
  intros Hlen Hin Hsub.
  assert (Hiny : In NaN ys).
  { apply In_nth_error in Hin as [n Hn]. apply (nth_error_In ys n). now apply Hsub. }
  assert (Hnx : nans_blocks_function xs <> []) by (intros H; now apply nans_blocks_nil in H).
  assert (Hny : nans_blocks_function ys <> []) by (intros H; now apply nans_blocks_nil in H).
  rewrite (compute_nan_indices_delay_eq _ _ _ Hnx), (compute_nan_indices_delay_eq _ _ _ Hny).
  do 2 eexists. split; [reflexivity|]. split; [reflexivity|].
  intros n Hn. rewrite <- Hlen.
  rewrite nth_error_map in Hn |- *.
  destruct (nth_error (arange 0 (Z.of_nat (length xs))) n) as [i|]; [|discriminate].
  cbn [option_map] in Hn |- *.
  destruct (covers _ i) eqn:Hc; [|discriminate]. clear Hn.
  replace (covers _ i) with true; [reflexivity|]. symmetry.
  apply covers_true in Hc as (s & e & Hse & Hi).
  apply in_flat_map in Hse as [b [Hb Hse]].
  destruct (block_within_block xs ys b Hsub Hb) as [b' [Hb' [Hh Hl]]].
  apply covers_true. unfold block_intervals in Hse.
  destruct Hse as [Hse|[Hse|[]]]; apply pair_equal_spec in Hse as [Hs He]; subst s e.
  - exists (hd 0 b'), (last b' 0). split; [|lia].
    apply in_flat_map. exists b'. split; [exact Hb'|]. now left.
  - set (p := Z.quot (order + 1) 2) in *.
    exists (hd 0 b' + delay - p + 1), (last b' 0 + delay - (1 - p) + 1). split; [|lia].
    apply in_flat_map. exists b'. split; [exact Hb'|]. right. now left.
Qed.

(** X2: the hypotheses hold for scenario D and the same mask with a
    second gap. *)
Lemma compute_nan_indices_delay_monotone_witness :
  (length scenario_D_mask = length scenario_D_two_gaps_mask /\ In NaN scenario_D_mask /\
   (forall n, nth_error scenario_D_mask n = Some NaN ->
              nth_error scenario_D_two_gaps_mask n = Some NaN)) /\
  exists ox oy, compute_nan_indices_delay scenario_D_mask 5 5 = Some ox /\
    compute_nan_indices_delay scenario_D_two_gaps_mask 5 5 = Some oy /\
    forall n, nth_error ox n = Some NaN -> nth_error oy n = Some NaN.
Proof.
  assert (H1 : length scenario_D_mask = length scenario_D_two_gaps_mask) by reflexivity.
  assert (H2 : In NaN scenario_D_mask) by (vm_compute; tauto).
  assert (H3 : forall n, nth_error scenario_D_mask n = Some NaN ->
                         nth_error scenario_D_two_gaps_mask n = Some NaN).
  { intros n Hn.
    do 20 (destruct n as [|n]; [vm_compute in Hn |- *; congruence|]).
    vm_compute in Hn. destruct n; discriminate Hn. }
  split; [split; [exact H1 | split; [exact H2 | exact H3]]|].
  exact (compute_nan_indices_delay_monotone scenario_D_mask scenario_D_two_gaps_mask 5 5 H1 H2 H3).
Defined.

(** ** The TDI X pipeline *)

Lemma compute_stage (xs : list flt) (delay order : Z) :
  In NaN xs ->
  exists out, compute_nan_indices_delay xs delay order = Some out /\
    length out = length xs /\
    (forall n, nth_error xs n = Some NaN -> nth_error out n = Some NaN) /\
    In NaN out.
Proof.
  intros Hin.
  destruct (compute_nan_indices_delay_keeps_nans xs delay order Hin)
    as [out [Hout [Hlen [Hkeep _]]]].
  exists out. split; [exact Hout|]. split; [exact Hlen|]. split; [exact Hkeep|].
  apply In_nth_error in Hin as [n Hn]. apply (nth_error_In out n). now apply Hkeep.
Qed.

(** X3: on a mask with a NaN, [mask_eta] and [mask_TDI_X] of both
    generations succeed and keep the length; every NaN of the input is NaN
    in the eta mask, every NaN of the eta mask is NaN in the generation 1
    mask, and every NaN of that one is NaN in the generation 2 mask. *)
Theorem mask_TDI_X_conservative (mask_telemetry : list flt) (delay : Q) (order : Z) :
  In NaN mask_telemetry ->
  exists eta x1 x2,
    mask_eta mask_telemetry delay order = Some eta /\
    mask_TDI_X mask_telemetry delay order 1 = Some x1 /\
    mask_TDI_X mask_telemetry delay order 2 = Some x2 /\
    length eta = length mask_telemetry /\ length x1 = length mask_telemetry /\
    length x2 = length mask_telemetry /\
    (forall n, nth_error mask_telemetry n = Some NaN -> nth_error eta n = Some NaN) /\
    (forall n, nth_error eta n = Some NaN -> nth_error x1 n = Some NaN) /\
    (forall n, nth_error x1 n = Some NaN -> nth_error x2 n = Some NaN).
Proof.
  intros Hin. unfold mask_eta, mask_TDI_X.
  destruct (compute_stage mask_telemetry (Qfloor delay) order Hin) as [eta [He [Hle [Hke Hie]]]].
  destruct (compute_stage eta (Qfloor delay) order Hie) as [a12 [Ha [Hla [Hka Hia]]]].
  destruct (compute_stage a12 (Qfloor (2 * delay)) order Hia) as [r12 [Hr [Hlr [Hkr Hir]]]].
  destruct (compute_stage r12 (Qfloor (4 * delay)) order Hir) as [q21 [Hq [Hlq [Hkq _]]]].
  rewrite He, Ha, Hr. cbn [Z.eqb Pos.eqb]. rewrite Hq.
  exists eta, r12, q21.
  split; [reflexivity|]. split; [reflexivity|]. split; [reflexivity|].
  split; [exact Hle|]. split; [congruence|]. split; [congruence|].
  split; [exact Hke|]. split; [intros n Hn; now apply Hkr, Hka|]. exact Hkq.
Qed.

(** X3: the hypothesis holds for scenario D. *)
Lemma mask_TDI_X_conservative_witness :
  In NaN scenario_D_mask /\
  exists x2, mask_TDI_X scenario_D_mask 5 5 2 = Some x2 /\ length x2 = 20%nat.
Proof.
  assert (H : In NaN scenario_D_mask) by (vm_compute; tauto).
  split; [exact H|].
  destruct (mask_TDI_X_conservative scenario_D_mask 5 5 H)
    as (eta & x1 & x2 & _ & _ & Hx2 & _ & _ & Hl & _).
  exists x2. split; [exact Hx2 | exact Hl].
Defined.

(** ** Approximate NaN counts *)

Lemma gap_augmentation_total_ge (L N_nans : Z) (delay delay_number : Q) :
  1 <= L -> 0 <= N_nans -> (0 <= delay)%Q -> (0 < delay_number)%Q ->
  N_nans <= snd (gap_augmentation_expression L N_nans delay delay_number).
Proof.
  intros HL Hn Hd Hk.
  assert (HD : 0 <= Qfloor (delay_number * delay)).
  { apply Qfloor_nonneg. apply Qmult_le_0_compat; [apply Qlt_le_weak|]; assumption. }
  unfold gap_augmentation_expression.
  apply widening_result_nonneg; [exact Hn|].
  revert HD; generalize (Qfloor (delay_number * delay)); intros Dz HD.
  destruct (_ && _); [|destruct (Qle_bool _ _)];
    unfold extra_branch_1, extra_branch_2, extra_branch_3;
    unfold Qle, Qplus, Qdiv, Qmult, Qinv, inject_Z; simpl; nia.
Qed.

Lemma enumerate_count (xs : list flt) :
  forall k, length (filter (fun ix => isnan (snd ix)) (enumerate k xs)) = length (filter isnan xs).
Proof.
  induction xs as [|x xs IH]; intros k; [reflexivity|].
  cbn [enumerate filter snd]. destruct (isnan x); cbn [length]; now rewrite IH.
Qed.

Lemma blocks_count (xs : list flt) :
  length (concat (nans_blocks_function xs)) = length (filter isnan xs).
Proof.
  rewrite nans_blocks_concat. unfold nan_indices. rewrite length_map. apply enumerate_count.
Qed.

Lemma fold_sum_lower (g : list Z -> Z) (l : list (list Z)) :
  (forall b, In b l -> Z.of_nat (length b) <= g b) ->
  forall a, a + Z.of_nat (length (concat l)) <= fold_left (fun t b => t + g b) l a.
Proof.
  induction l as [|b l IH]; intros Hg a; [simpl; lia|].
  cbn [fold_left concat]. rewrite length_app.
  specialize (IH (fun b' Hb' => Hg b' (or_intror Hb')) (a + g b)).
  specialize (Hg b (or_introl eq_refl)). lia.
Qed.

Lemma fold_option_sum_lower (w : list Z -> option (Z * Z)) (l : list (list Z)) :
  (forall b, In b l -> exists e t, w b = Some (e, t) /\ Z.of_nat (length b) <= t) ->
  forall a, exists r,
    fold_left (fun acc b => match acc with
                            | None => None
                            | Some total => match w b with
                                            | None => None
                                            | Some (_, t) => Some (total + t)
                                            end
                            end) l (Some a) = Some r /\
    a + Z.of_nat (length (concat l)) <= r.
Proof.
  induction l as [|b l IH]; intros Hw a; [exists a; split; [reflexivity | simpl; lia]|].
  destruct (Hw b (or_introl eq_refl)) as (e & t & Hwb & Ht).
  cbn [fold_left]. rewrite Hwb.
  destruct (IH (fun b' Hb' => Hw b' (or_intror Hb')) (a + t)) as [r [Hr Hle]].
  exists r. split; [exact Hr|]. cbn [concat]. rewrite length_app. lia.
Qed.

Lemma widening_gap_X_total_ge (L N_nans : Z) (delay : Q) (generation : Z) :
  1 <= L -> 0 <= N_nans -> (0 <= delay)%Q ->
  exists e t, (if generation =? 1 then widening_gap_X1 L N_nans delay
               else widening_gap_X2 L N_nans delay) = Some (e, t) /\ N_nans <= t.
Proof.
  intros HL Hn Hd.
  assert (Hpos : forall k, (0 < k)%Q -> forall n, 0 <= n ->
            n <= snd (gap_augmentation_expression L n delay k))
    by (intros k Hk n Hn'; now apply gap_augmentation_total_ge).
  assert (H1 : (0 < 1)%Q) by reflexivity.
  assert (H2 : (0 < 2)%Q) by reflexivity.
  assert (H4 : (0 < 4)%Q) by reflexivity.
  set (t1 := snd (gap_augmentation_expression L N_nans delay 1)).
  set (t2 := snd (gap_augmentation_expression L t1 delay 1)).
  set (r := gap_augmentation_expression L t2 delay 2).
  assert (Ht1 : N_nans <= t1) by now apply Hpos.
  assert (Ht2 : t1 <= t2) by (apply Hpos; [exact H1 | lia]).
  assert (Hr : t2 <= snd r) by (apply Hpos; [exact H2 | lia]).
  assert (HX1 : widening_gap_X1 L N_nans delay = Some r) by reflexivity.
  destruct (generation =? 1).
  - exists (fst r), (snd r). rewrite HX1. split; [now destruct r | lia].
  - unfold widening_gap_X2. rewrite HX1. destruct r as [e3 t3]. cbn [snd] in Hr.
    exists (fst (gap_augmentation_expression L t3 delay 4)),
           (snd (gap_augmentation_expression L t3 delay 4)).
    split; [now destruct (gap_augmentation_expression L t3 delay 4)|].
    assert (t3 <= snd (gap_augmentation_expression L t3 delay 4)) by (apply Hpos; [exact H4 | lia]).
    lia.
Qed.

(** X4: without NaN, both approximate counts are [0]: unlike the mask
    functions they do not raise. *)
Theorem approx_total_nans_no_nan (object_w_nans : list flt) (delay delay_number : Q)
    (order generation : Z) :
  ~ In NaN object_w_nans ->
  approx_total_nans_from_nan_blocks_eta object_w_nans delay order delay_number = 0 /\
  approx_total_nans_from_nan_blocks_X object_w_nans delay order generation = Some 0.
Proof.
  intros Hno. apply nans_blocks_nil in Hno.
  unfold approx_total_nans_from_nan_blocks_eta, approx_total_nans_from_nan_blocks_X.
  rewrite Hno. split; reflexivity.
Qed.

(** X4: the hypothesis holds for an all-ones array. *)
Lemma approx_total_nans_no_nan_witness :
  ~ In NaN [Num 1; Num 1; Num 1] /\
  approx_total_nans_from_nan_blocks_eta [Num 1; Num 1; Num 1] 10 45 1 = 0.
Proof.
  assert (H : ~ In NaN [Num 1; Num 1; Num 1]) by (simpl; intuition discriminate).
  split; [exact H|].
  exact (proj1 (approx_total_nans_no_nan [Num 1; Num 1; Num 1] 10 1 45 2 H)).
Defined.

(** X5: for [order >= 1], [delay >= 0] and [delay_number > 0], the
    approximate eta count is at least the number of NaNs of the input. *)
Theorem approx_total_nans_eta_lower_bound (object_w_nans : list flt) (delay : Q)
    (lagrange_order : Z) (delay_number : Q) :
  1 <= lagrange_order -> (0 <= delay)%Q -> (0 < delay_number)%Q ->
  Z.of_nat (length (filter isnan object_w_nans))
    <= approx_total_nans_from_nan_blocks_eta object_w_nans delay lagrange_order delay_number.
Proof.
  intros HL Hd Hk. unfold approx_total_nans_from_nan_blocks_eta.
  rewrite <- blocks_count.
  pose proof (fold_sum_lower (fun block => snd (gap_augmentation_expression lagrange_order
           (Z.of_nat (length block)) delay delay_number)) (nans_blocks_function object_w_nans))
    as Hf.
  refine (Z.le_trans _ _ _ _ (Hf _ 0)); [lia|].
  intros b _. apply gap_augmentation_total_ge; [exact HL | lia | exact Hd | exact Hk].
Qed.

(** X5: the hypotheses hold for scenario D. *)
Lemma approx_total_nans_eta_lower_bound_witness :
  (1 <= 45 /\ (0 <= 10)%Q /\ (0 < 1)%Q) /\
  Z.of_nat (length (filter isnan scenario_D_mask))
    <= approx_total_nans_from_nan_blocks_eta scenario_D_mask 10 45 1.
Proof.
  assert (H1 : 1 <= 45) by lia.
  assert (H2 : (0 <= 10)%Q) by (unfold Qle; simpl; lia).
  assert (H3 : (0 < 1)%Q) by (unfold Qlt; simpl; lia).
  split; [split; [exact H1 | split; [exact H2 | exact H3]]|].
  exact (approx_total_nans_eta_lower_bound scenario_D_mask 10 45 1 H1 H2 H3).
Defined.

(** X6: for [order >= 1] and [delay >= 0], the approximate TDI X count of
    either generation is computed without error and is at least the number
    of NaNs of the input. *)
Theorem approx_total_nans_X_lower_bound (object_w_nans : list flt) (delay : Q)
    (order generation : Z) :
  1 <= order -> (0 <= delay)%Q ->
  exists total, approx_total_nans_from_nan_blocks_X object_w_nans delay order generation = Some total /\
    Z.of_nat (length (filter isnan object_w_nans)) <= total.
Proof.
  intros HL Hd. unfold approx_total_nans_from_nan_blocks_X.
  rewrite <- blocks_count.
  destruct (fold_option_sum_lower
              (fun block => if generation =? 1 then widening_gap_X1 order (Z.of_nat (length block)) delay
                            else widening_gap_X2 order (Z.of_nat (length block)) delay)
              (nans_blocks_function object_w_nans)) with (a := 0) as [r [Hr Hle]].
  - intros b _. apply widening_gap_X_total_ge; [exact HL | lia | exact Hd].
  - exists r. split; [exact Hr | lia].
Qed.

(** X6: the hypotheses hold for scenario D. *)
Lemma approx_total_nans_X_lower_bound_witness :
  (1 <= 45 /\ (0 <= 10)%Q) /\
  exists total, approx_total_nans_from_nan_blocks_X scenario_D_mask 10 45 2 = Some total /\
    Z.of_nat (length (filter isnan scenario_D_mask)) <= total.
Proof.
  assert (H1 : 1 <= 45) by lia.
  assert (H2 : (0 <= 10)%Q) by (unfold Qle; simpl; lia).
  split; [split; [exact H1 | exact H2]|].
  exact (approx_total_nans_X_lower_bound scenario_D_mask 10 45 2 H1 H2).
Defined.

(** ** construct_mask_single_gap, gap inside the array *)

Lemma count_nan_window (lo hi e s : Z) :
  length (filter isnan
     (map (fun i => if (lo <=? i) && (i <? hi) then NaN else Num 1) (arange s e)))
  = Z.to_nat (Z.min e hi - Z.max s lo).
Proof.
  remember (Z.to_nat (e - s)) as n eqn:En. revert s En.
  induction n as [|n IH]; intros s En.
  - rewrite arange_nil by lia. simpl. lia.
  - rewrite arange_cons by lia. cbn [map filter].
    specialize (IH (s + 1) ltac:(lia)).
    destruct (Z.leb_spec lo s); destruct (Z.ltb_spec s hi); simpl; lia.
Qed.

(** X7: when [0 <= N_nans] and [len / 2 + N_nans <= len], the mask has
    length [len], exactly [N_nans] NaNs, at indices [len / 2] to
    [len / 2 + N_nans - 1], and [1.0] everywhere else. *)
Theorem construct_mask_single_gap_fits (N_nans len : Z) :
  0 <= len -> 0 <= N_nans -> len / 2 + N_nans <= len ->
  let m := construct_mask_single_gap N_nans len in
  length m = Z.to_nat len /\
  length (filter isnan m) = Z.to_nat N_nans /\
  forall i, 0 <= i < len ->
    nth_error m (Z.to_nat i) =
    Some (if (len / 2 <=? i) && (i <? len / 2 + N_nans) then NaN else Num 1).
Proof.
  intros Hlen HN Hfit m.
  assert (Hmid : 0 <= len / 2 <= len).
  { split; [apply Z.div_pos; lia|]. destruct (Z.eq_dec len 0) as [->|]; [reflexivity|].
    apply Z.div_le_upper_bound; lia. }
  assert (Hm : m = map (fun i => if (len / 2 <=? i) && (i <? len / 2 + N_nans) then NaN else Num 1)
                       (arange 0 len)).
  { subst m. unfold construct_mask_single_gap, slice_bound.
    destruct (Z.ltb_spec (len / 2) 0); [lia|].
    destruct (Z.ltb_spec (len / 2 + N_nans) 0); [lia|].
    rewrite Z.min_l by lia. rewrite Z.min_l by lia. reflexivity. }
  rewrite Hm. split; [|split].
  - rewrite length_map, arange_length. f_equal. lia.
  - rewrite count_nan_window. f_equal. lia.
  - intros i Hi. rewrite nth_error_map, nth_error_arange by lia. simpl.
    now rewrite Z2Nat.id by lia.
Qed.

(** X7: the hypotheses hold for [N_nans = 4], [len = 10]: NaN at 5..8. *)
Lemma construct_mask_single_gap_fits_witness :
  (0 <= 10 /\ 0 <= 4 /\ 10 / 2 + 4 <= 10) /\
  length (filter isnan (construct_mask_single_gap 4 10)) = Z.to_nat 4.
Proof.
  assert (H1 : 0 <= 10) by lia. assert (H2 : 0 <= 4) by lia.
  assert (H3 : 10 / 2 + 4 <= 10) by (vm_compute; discriminate).
  split; [split; [exact H1 | split; [exact H2 | exact H3]]|].
  exact (proj1 (proj2 (construct_mask_single_gap_fits 4 10 H1 H2 H3))).
Defined.

(** ** merge_intervals depends only on the covered indices *)

Lemma canonical_tail_above (iv : Z * Z) (t : list (Z * Z)) (i : Z) :
  Forall (separated iv) t -> covers t i = true -> snd iv + 1 < i.
Proof.
  intros Hsep Hc. apply covers_true in Hc as (s & e & Hin & Hi).
  rewrite Forall_forall in Hsep. specialize (Hsep (s, e) Hin). unfold separated in Hsep.
  simpl in Hsep. lia.
Qed.

Lemma canonical_unique (l1 : list (Z * Z)) :
  forall l2,
  Forall (fun iv => fst iv <= snd iv) l1 -> ForallOrdPairs separated l1 ->
  Forall (fun iv => fst iv <= snd iv) l2 -> ForallOrdPairs separated l2 ->
  (forall i, covers l1 i = covers l2 i) -> l1 = l2.
Proof.
  induction l1 as [|[s1 e1] t1 IH]; intros [|[s2 e2] t2] Hw1 Hp1 Hw2 Hp2 Hc.
  - reflexivity.
  - exfalso. inversion Hw2 as [|? ? Hs2 _]. specialize (Hc s2).
    rewrite covers_cons in Hc. simpl in Hs2, Hc.
    rewrite Z.leb_refl in Hc. apply Z.leb_le in Hs2. rewrite Hs2 in Hc. discriminate Hc.
  - exfalso. inversion Hw1 as [|? ? Hs1 _]. specialize (Hc s1).
    rewrite covers_cons in Hc. simpl in Hs1, Hc.
    rewrite Z.leb_refl in Hc. apply Z.leb_le in Hs1. rewrite Hs1 in Hc. discriminate Hc.
  - inversion Hw1 as [|? ? Hs1 Hw1']. inversion Hw2 as [|? ? Hs2 Hw2'].
    inversion Hp1 as [|? ? Hsep1 Hp1']. inversion Hp2 as [|? ? Hsep2 Hp2'].
    simpl in Hs1, Hs2.
    assert (Hhead : forall i, covers ((s1, e1) :: t1) i = ((s1 <=? i) && (i <=? e1)) || covers t1 i)
      by reflexivity.
    assert (Hhead2 : forall i, covers ((s2, e2) :: t2) i = ((s2 <=? i) && (i <=? e2)) || covers t2 i)
      by reflexivity.
    assert (Ht1 : forall i, covers t1 i = true -> e1 + 1 < i)
      by (intros i Hi; exact (canonical_tail_above (s1, e1) t1 i Hsep1 Hi)).
    assert (Ht2 : forall i, covers t2 i = true -> e2 + 1 < i)
      by (intros i Hi; exact (canonical_tail_above (s2, e2) t2 i Hsep2 Hi)).
    assert (Hlow1 : forall i, covers ((s1, e1) :: t1) i = true -> s1 <= i).
    { intros i Hi. rewrite Hhead in Hi. apply orb_true_iff in Hi as [Hi|Hi].
      - apply andb_true_iff in Hi as [Hi _]. now apply Z.leb_le in Hi.
      - specialize (Ht1 i Hi). lia. }
    assert (Hlow2 : forall i, covers ((s2, e2) :: t2) i = true -> s2 <= i).
    { intros i Hi. rewrite Hhead2 in Hi. apply orb_true_iff in Hi as [Hi|Hi].
      - apply andb_true_iff in Hi as [Hi _]. now apply Z.leb_le in Hi.
      - specialize (Ht2 i Hi). lia. }
    assert (Hself1 : covers ((s1, e1) :: t1) s1 = true).
    { rewrite Hhead. rewrite Z.leb_refl. apply Z.leb_le in Hs1. now rewrite Hs1. }
    assert (Hself2 : covers ((s2, e2) :: t2) s2 = true).
    { rewrite Hhead2. rewrite Z.leb_refl. apply Z.leb_le in Hs2. now rewrite Hs2. }
    assert (Hs : s1 = s2).
    { apply Z.le_antisymm; [apply Hlow1; now rewrite Hc | apply Hlow2; now rewrite <- Hc]. }
    subst s2.
    assert (Hnot1 : covers ((s1, e1) :: t1) (e1 + 1) = false).
    { rewrite Hhead. destruct (covers t1 (e1 + 1)) eqn:E; [specialize (Ht1 _ E); lia|].
      destruct (Z.leb_spec (e1 + 1) e1); [lia|]. now rewrite andb_false_r. }
    assert (Hnot2 : covers ((s1, e2) :: t2) (e2 + 1) = false).
    { rewrite Hhead2. destruct (covers t2 (e2 + 1)) eqn:E; [specialize (Ht2 _ E); lia|].
      destruct (Z.leb_spec (e2 + 1) e2); [lia|]. now rewrite andb_false_r. }
    assert (He : e1 = e2).
    { destruct (Z.lt_trichotomy e1 e2) as [Hlt|[Heq|Hgt]]; [exfalso| exact Heq | exfalso].
      - rewrite Hc, Hhead2 in Hnot1.
        destruct (Z.leb_spec s1 (e1 + 1)); [|lia]. destruct (Z.leb_spec (e1 + 1) e2); [|lia].
        discriminate Hnot1.
      - rewrite <- Hc, Hhead in Hnot2.
        destruct (Z.leb_spec s1 (e2 + 1)); [|lia]. destruct (Z.leb_spec (e2 + 1) e1); [|lia].
        discriminate Hnot2. }
    subst e2. f_equal. apply IH; try assumption.
    intros i. specialize (Hc i). rewrite Hhead, Hhead2 in Hc.
    destruct (Z.leb_spec i e1).
    + destruct (covers t1 i) eqn:E1; [specialize (Ht1 _ E1); lia|].
      destruct (covers t2 i) eqn:E2; [specialize (Ht2 _ E2); lia|]. reflexivity.
    + rewrite !andb_false_r in Hc. exact Hc.
Qed.

(** X8: the result of [merge_intervals] depends only on the set of indices
    its (well-formed) input covers: two inputs covering the same indices,
    for instance the same intervals in another order, merge to the same list. *)
Theorem merge_intervals_determined_by_cover (l1 l2 : list (Z * Z)) :
  Forall (fun iv => fst iv <= snd iv) l1 -> Forall (fun iv => fst iv <= snd iv) l2 ->
  (forall i, covers l1 i = covers l2 i) ->
  merge_intervals l1 = merge_intervals l2.
Proof.
  intros Hw1 Hw2 Hc.
  destruct (merge_intervals_structure l1 Hw1) as [Hmw1 Hsep1].
  destruct (merge_intervals_structure l2 Hw2) as [Hmw2 Hsep2].
  apply canonical_unique; try assumption.
  intros i. now rewrite !merge_intervals_covers.
Qed.

(** X8: the hypotheses hold for [[(3, 5), (0, 2)]] and [[(0, 5)]]. *)
Lemma merge_intervals_determined_by_cover_witness :
  (Forall (fun iv => fst iv <= snd iv) [(3, 5); (0, 2)] /\
   Forall (fun iv => fst iv <= snd iv) [(0, 5)] /\
   (forall i, covers [(3, 5); (0, 2)] i = covers [(0, 5)] i)) /\
  merge_intervals [(3, 5); (0, 2)] = merge_intervals [(0, 5)].
Proof.
  assert (H1 : Forall (fun iv => fst iv <= snd iv) [(3, 5); (0, 2)]) by (repeat constructor; simpl; lia).
  assert (H2 : Forall (fun iv => fst iv <= snd iv) [(0, 5)]) by (repeat constructor; simpl; lia).
  assert (H3 : forall i, covers [(3, 5); (0, 2)] i = covers [(0, 5)] i).
  { intros i. unfold covers. simpl.
    destruct (Z.leb_spec 3 i), (Z.leb_spec i 5), (Z.leb_spec 0 i), (Z.leb_spec i 2); simpl; lia. }
  split; [split; [exact H1 | split; [exact H2 | exact H3]]|].
  exact (merge_intervals_determined_by_cover _ _ H1 H2 H3).
Defined.
